(** * lava.hxx: the persistent entity model of the bug-injection pipeline

    A shallow embedding of [include/lava.hxx]: the ODB-mapped structs, their
    [operator<] (all written with [std::tie]), the [SourceModification]
    constructor with its byte-selection hash, and the [AttackPoint] stream
    output.

    Conventions.
    - [uint32_t], [uint64_t] and [unsigned long] values are integers in [Z];
      arithmetic that can wrap is reduced modulo the width of its C++ type.
    - A pointer is the address it holds; [nullptr] is address 0.  The
      built-in [<] on pointers compares addresses.
    - [std::string] is [string]; its [operator<] compares bytes as unsigned
      characters, then lengths, which is [String.ltb].
    - [std::vector<T>] is [list T]. *)

From Stdlib Require Import ZArith List String Ascii Bool Lia Permutation.
From Stdlib Require Import DecimalString.
From Stdlib Require Floats.SpecFloat DecimalN.
Import ListNotations.

Local Open Scope Z_scope.

(** ** [operator<] and [std::tie] *)

(** The overloaded [operator<] of C++. *)
Class Less (A : Type) : Type := less : A -> A -> bool.

Arguments less {A _} _ _ : simpl never.

(** What the proofs need of a field type: [<] is irreflexive, and two values
    neither of which is below the other are the same value. *)
Class StrictTotal (A : Type) {L : Less A} : Prop := {
  less_irrefl : forall x : A, less x x = false;
  less_connex : forall x y : A, less x y = false -> less y x = false -> x = y
}.

Definition uint32_t : Type := Z.
Definition uint64_t : Type := Z.
Definition unsigned_long : Type := Z.

(** [const T*]: the address. *)
Definition pointer (T : Type) : Type := Z.
Definition nullptr {T : Type} : pointer T := 0.

#[export] Instance Z_Less : Less Z := Z.ltb.
#[export] Instance pointer_Less (T : Type) : Less (pointer T) := Z.ltb.
#[export] Instance bool_Less : Less bool := fun a b => negb a && b.
#[export] Instance string_Less : Less string := String.ltb.

(** [std::lexicographical_compare], which [operator<] of [std::vector] calls.
    It walks both ranges in step; at the first position where the left
    element is below the right one it returns [true], where the right one is
    below the left one it returns [false]; when a range is exhausted it
    returns whether the left range ended and the right one did not. *)
Fixpoint lexicographical_compare {A : Type} {L : Less A} (v w : list A) : bool :=
  match v, w with
  | x :: v', y :: w' =>
      if less x y then true
      else if less y x then false
      else lexicographical_compare v' w'
  | [], _ :: _ => true
  | _, [] => false
  end.

#[export] Instance vector_Less (A : Type) {L : Less A} : Less (list A) :=
  lexicographical_compare.

(** [operator<] of [std::tuple]: at index [i],
    [get<i>(t) < get<i>(u) || (!(get<i>(u) < get<i>(t)) && less at i+1)],
    and [false] past the last index.  A tuple is a right-nested pair closed
    by [tt]. *)
#[export] Instance tuple_end_Less : Less unit := fun _ _ => false.
#[export] Instance tuple_Less (A B : Type) {LA : Less A} {LB : Less B} : Less (A * B) :=
  fun t u => less (fst t) (fst u) || (negb (less (fst u) (fst t)) && less (snd t) (snd u)).

Notation "'std_tie' [ x ; .. ; y ]" := (pair x .. (pair y tt) ..)
  (at level 0, format "'std_tie' [ x ;  .. ;  y ]").

(** ** Fixed-width arithmetic *)

(** [a + b] computed in [unsigned int] (32 bits). *)
Definition add32 (a b : Z) : Z := (a + b) mod 2 ^ 32.

Section Shift.

(** C++ gives no meaning to [x << s] on a 32-bit [x] when [s >= 32];
    processors mask the count or produce zero.  [oversized_shift x s] stands
    for whatever the compiled program yields there. *)
Variable oversized_shift : Z -> Z -> Z.

(** [x << s] where [x] has type [unsigned int]: the result has that type
    too, whatever the type of the count. *)
Definition shl32 (x s : Z) : Z :=
  (if s <? 32 then Z.shiftl x s else oversized_shift x s) mod 2 ^ 32.

End Shift.

(** The shift count masked to five bits, as x86 does. *)
Definition masked_shift (x s : Z) : Z := Z.shiftl x (s mod 32).

(** ** Assertions and output streams *)

(** A call either returns or stops at a failed [assert]. *)
Inductive outcome (A : Type) : Type :=
| Returns (a : A)
| AssertionFailed.

Arguments Returns {A} a.
Arguments AssertionFailed {A}.

Definition bind {A B : Type} (c : outcome A) (k : A -> outcome B) : outcome B :=
  match c with
  | Returns a => k a
  | AssertionFailed => AssertionFailed
  end.

Notation "x <- c ;; k" := (bind c (fun x => k))
  (at level 61, c at next level, right associativity).

(** [assert(c)]: checked unless the translation unit defines [NDEBUG]. *)
Definition cassert (NDEBUG : bool) (c : bool) : outcome unit :=
  if NDEBUG || c then Returns tt else AssertionFailed.

(** A [std::ostream] in its default format state (decimal base, no field
    width, no fill): the text written to it so far.  A fresh
    [std::stringstream], as [operator std::string] creates, is such a
    stream.  Streams whose caller has set [std::hex], a width or a fill are
    outside this model. *)
Definition ostream : Type := string.

Definition put_string (os : ostream) (s : string) : ostream := (os ++ s)%string.

(** [os << n] for an unsigned integer on a stream in the default format
    state: its decimal digits. *)
Definition put_unsigned (os : ostream) (n : Z) : ostream :=
  put_string os (NilZero.string_of_uint (N.to_uint (Z.to_N n))).

(** ** SourceLval *)

Module SourceLval.

Inductive Timing : Type :=
| NULL_TIMING
| BEFORE_OCCURRENCE
| AFTER_OCCURRENCE.

(** The enumerators' declared values. *)
Definition Timing_value (t : Timing) : Z :=
  match t with
  | NULL_TIMING => 0
  | BEFORE_OCCURRENCE => 1
  | AFTER_OCCURRENCE => 2
  end.

#[export] Instance Timing_Less : Less Timing :=
  fun a b => Timing_value a <? Timing_value b.

Record t : Type := mk {
  id : unsigned_long;
  file : string;
  line : uint32_t;
  ast_name : string;
  timing : Timing
}.

(** [bool operator<(const SourceLval &other) const] *)
Definition lt (self other : t) : bool :=
  less (std_tie [file self; line self; ast_name self; timing self])
       (std_tie [file other; line other; ast_name other; timing other]).

(** The members of the index [SourceLvalUniq]. *)
Definition SourceLvalUniq (x : t) : string * uint32_t * string * Timing :=
  (file x, line x, ast_name x, timing x).

End SourceLval.
Export (hints) SourceLval.

(** ** LabelSet *)

Module LabelSet.

Record t : Type := mk {
  id : unsigned_long;
  ptr : uint64_t;
  inputfile : string;
  labels : list uint32_t
}.

Definition lt (self other : t) : bool :=
  less (std_tie [ptr self; inputfile self; labels self])
       (std_tie [ptr other; inputfile other; labels other]).

End LabelSet.

(** ** Dua *)

Module Dua.

Record t : Type := mk {
  id : unsigned_long;
  lval : pointer SourceLval.t;                 (* db not_null *)
  viable_bytes : list (pointer LabelSet.t);
  all_labels : list uint32_t;
  inputfile : string;
  max_tcn : uint32_t;
  max_cardinality : uint32_t;
  instr : uint64_t;
  fake_dua : bool
}.

(** [bool operator<(const Dua &other) const]: seven members are tied;
    [id] and [all_labels] are not among them. *)
Definition lt (self other : t) : bool :=
  less (std_tie [lval self; viable_bytes self; inputfile self; max_tcn self;
                 max_cardinality self; instr self; fake_dua self])
       (std_tie [lval other; viable_bytes other; inputfile other; max_tcn other;
                 max_cardinality other; instr other; fake_dua other]).

(** The members of the index [DuaUniq]. *)
Definition DuaUniq (d : t) : pointer SourceLval.t * string * uint64_t :=
  (lval d, inputfile d, instr d).

(** The members [operator<] ties. *)
Definition tied (d : t) :
  pointer SourceLval.t * list (pointer LabelSet.t) * string * uint32_t * uint32_t * uint64_t * bool :=
  (lval d, viable_bytes d, inputfile d, max_tcn d, max_cardinality d, instr d, fake_dua d).

End Dua.

(** ** AttackPoint *)

Module AttackPoint.

Inductive Type_ : Type :=
| ATP_FUNCTION_CALL
| ATP_POINTER_RW
| ATP_LARGE_BUFFER_AVAIL.

(** No enumerator has an initialiser: they count from zero. *)
Definition Type_value (k : Type_) : Z :=
  match k with
  | ATP_FUNCTION_CALL => 0
  | ATP_POINTER_RW => 1
  | ATP_LARGE_BUFFER_AVAIL => 2
  end.

#[export] Instance Type_Less : Less Type_ :=
  fun a b => Type_value a <? Type_value b.

(** [==] on the enumeration. *)
Definition Type_eqb (a b : Type_) : bool := Type_value a =? Type_value b.

Record t : Type := mk {
  id : unsigned_long;
  file : string;
  line : uint32_t;
  type : Type_
}.

Definition lt (self other : t) : bool :=
  less (std_tie [file self; line self; type self])
       (std_tie [file other; line other; type other]).

(** [friend std::ostream &operator<<(std::ostream &os, const AttackPoint &m)] *)
Definition stream_out (NDEBUG : bool) (os : ostream) (m : t) : outcome ostream :=
  let os := put_string os "ATP [" in
  let os := put_string os (file m) in
  let os := put_string os ":" in
  let os := put_unsigned os (line m) in
  let os := put_string os "] {" in
  os <- (if Type_eqb (type m) ATP_POINTER_RW then
           Returns (put_string os "ATP_POINTER_RW")
         else if Type_eqb (type m) ATP_FUNCTION_CALL then
           Returns (put_string os "ATP_FUNCTION_CALL")
         else
           _ <- cassert NDEBUG false ;; Returns os) ;;
  Returns (put_string os "}").

(** [operator std::string() const]: a fresh [std::stringstream], [os << *this],
    then [os.str()]. *)
Definition to_string (NDEBUG : bool) (self : t) : outcome string :=
  os <- stream_out NDEBUG EmptyString self ;;
  Returns os.

End AttackPoint.
Export (hints) AttackPoint.

(** ** Bug *)

Module Bug.

Record t : Type := mk {
  id : unsigned_long;
  dua : pointer Dua.t;                     (* db not_null *)
  selected_bytes : list uint32_t;
  atp : pointer AttackPoint.t;             (* db not_null *)
  max_liveness : SpecFloat.spec_float
}.

(** [bool operator<(const Bug &other) const] *)
Definition lt (self other : t) : bool :=
  less (std_tie [atp self; dua self; selected_bytes self])
       (std_tie [atp other; dua other; selected_bytes other]).

(** The members of the index [BugUniq]. *)
Definition BugUniq (b : t) : pointer AttackPoint.t * pointer Dua.t * list uint32_t :=
  (atp b, dua b, selected_bytes b).

End Bug.

(** ** SourceModification *)

Module SourceModification.

Record t : Type := mk {
  id : unsigned_long;
  lval : pointer SourceLval.t;             (* db not_null *)
  selected_bytes : list uint32_t;
  selected_bytes_hash : uint64_t;
  atp : pointer AttackPoint.t              (* db not_null *)
}.

(** [SourceModification() {}]: the default member initialisers. *)
Definition default : t :=
  {| id := 0; lval := nullptr; selected_bytes := []; selected_bytes_hash := 0;
     atp := nullptr |}.

Section Constructor.

Variable oversized_shift : Z -> Z -> Z.

(** The body of the [for]: [remaining] iterations are left, [i] is the loop
    counter (a [size_t]) and [h] the hash so far.
    [h ^= (selected_bytes[i] + 1) << (16 * (i % 4))]: the sum and the shift
    are 32-bit, the exclusive-or is 64-bit. *)
Fixpoint hash_loop (bytes : list uint32_t) (remaining : nat) (i : Z) (h : uint64_t)
  : uint64_t :=
  match remaining with
  | O => h
  | S remaining' =>
      hash_loop bytes remaining' (i + 1)
        (Z.lxor h (shl32 oversized_shift (add32 (nth (Z.to_nat i) bytes 0) 1)
                                         (16 * (i mod 4))))
  end.

(** [SourceModification(const SourceLval *_lval, std::vector<uint32_t> _bytes,
    const AttackPoint* _atp)].  It has no [throw] and no [assert]: it returns
    an object for every argument. *)
Definition new (_lval : pointer SourceLval.t) (_bytes : list uint32_t)
  (_atp : pointer AttackPoint.t) : outcome t :=
  Returns {| id := 0;
             lval := _lval;
             selected_bytes := _bytes;
             selected_bytes_hash := hash_loop _bytes (List.length _bytes) 0 0;
             atp := _atp |}.

End Constructor.

(** [bool operator<(const SourceModification &other) const] *)
Definition lt (self other : t) : bool :=
  less (std_tie [atp self; lval self; selected_bytes_hash self])
       (std_tie [atp other; lval other; selected_bytes_hash other]).

(** The members of the index [SourceModificationUniq]. *)
Definition SourceModificationUniq (m : t)
  : pointer AttackPoint.t * pointer SourceLval.t * list uint32_t :=
  (atp m, lval m, selected_bytes m).

End SourceModification.

(** ** Build and Run *)

Module Build.

Record t : Type := mk {
  id : unsigned_long;
  bugs : list (pointer Bug.t);             (* db value_not_null *)
  output : string;
  compile : bool
}.

Definition lt (self other : t) : bool :=
  less (std_tie [bugs self; output self; compile self])
       (std_tie [bugs other; output other; compile other]).

End Build.

Module Run.

Record t : Type := mk {
  id : unsigned_long;
  build : pointer Build.t;                 (* db not_null *)
  fuzzed : pointer Bug.t;
  exitcode : Z;
  output : string;
  success : bool
}.

Definition lt (self other : t) : bool :=
  less (std_tie [build self; fuzzed self; exitcode self; output self; success self])
       (std_tie [build other; fuzzed other; exitcode other; output other; success other]).

End Run.

(** ** SourceFunction and Call *)

Module SourceFunction.

Record t : Type := mk {
  id : unsigned_long;
  file : string;
  line : uint32_t;
  name : string
}.

Definition lt (self other : t) : bool :=
  less (std_tie [file self; line self; name self])
       (std_tie [file other; line other; name other]).

End SourceFunction.

Module Call.

Record t : Type := mk {
  id : unsigned_long;
  call_instr : uint64_t;
  ret_instr : uint64_t;
  called_function : pointer SourceFunction.t;   (* db not_null *)
  callsite_file : string;
  callsite_line : uint32_t
}.

Definition lt (self other : t) : bool :=
  less (std_tie [call_instr self; ret_instr self; called_function self;
                 callsite_file self; callsite_line self])
       (std_tie [call_instr other; ret_instr other; called_function other;
                 callsite_file other; callsite_line other]).

End Call.

(** ** The properties stated of the model *)

(** Two records are equivalent for [operator<] when neither is below the
    other; this is the test an ordered container applies to decide that a
    key is already present. *)
Definition equivalent {A : Type} (lt : A -> A -> bool) (a b : A) : Prop :=
  lt a b = false /\ lt b a = false.

(** Lexicographic order on the four members of [SourceLvalUniq]. *)
Definition lexicographically_smaller (k k' : string * Z * string * SourceLval.Timing) : Prop :=
  let '(f, l, a, t) := k in
  let '(f', l', a', t') := k' in
  String.compare f f' = Lt \/
  (f = f' /\
   (l < l' \/
    (l = l' /\
     (String.compare a a' = Lt \/
      (a = a' /\ SourceLval.Timing_value t < SourceLval.Timing_value t'))))).

(** The hash as the sum, for exclusive-or, of one term per position. *)
Definition shift_amount (i : nat) : Z := 16 * (Z.of_nat (i mod 4)).

Definition hash_term (oversized_shift : Z -> Z -> Z) (bytes : list uint32_t) (i : nat) : Z :=
  shl32 oversized_shift (add32 (nth i bytes 0) 1) (shift_amount i).

Definition xor_over_positions (oversized_shift : Z -> Z -> Z) (bytes : list uint32_t) : Z :=
  fold_right Z.lxor 0 (map (hash_term oversized_shift bytes) (seq 0 (List.length bytes))).

(** A record whose stored hash is the one the constructor computes from its
    stored selection. *)
Definition hash_consistent (oversized_shift : Z -> Z -> Z) (m : SourceModification.t) : Prop :=
  SourceModification.selected_bytes_hash m =
  SourceModification.hash_loop oversized_shift (SourceModification.selected_bytes m)
    (List.length (SourceModification.selected_bytes m)) 0 0.

(** What [std::set], [std::map] and [std::sort] require of a comparison: a
    strict weak ordering.  It is irreflexive, asymmetric and transitive, and
    the equivalence it induces is transitive. *)
Definition strict_weak_order {A : Type} (lt : A -> A -> bool) : Prop :=
  (forall a, lt a a = false) /\
  (forall a b, lt a b = true -> lt b a = false) /\
  (forall a b c, lt a b = true -> lt b c = true -> lt a c = true) /\
  (forall a b c, equivalent lt a b -> equivalent lt b c -> equivalent lt a c).

(** [<] on a member type is transitive. *)
Class LessTransitive (A : Type) {L : Less A} : Prop :=
  less_trans : forall x y z : A, less x y = true -> less y z = true -> less x z = true.

(** The hash as the specification words it, written without the code's
    helpers: at position [i] the index plus one, as a 32-bit value, shifted
    left by [shift_amount i] and kept to 32 bits; the terms are combined by
    exclusive-or. *)
Definition claimed_term (b : Z) (i : nat) : Z :=
  (((b + 1) mod 2 ^ 32) * 2 ^ shift_amount i) mod 2 ^ 32.

Fixpoint claimed_hash_from (i : nat) (bytes : list Z) : Z :=
  match bytes with
  | [] => 0
  | b :: rest => Z.lxor (claimed_term b i) (claimed_hash_from (S i) rest)
  end.

Definition claimed_hash (bytes : list Z) : Z := claimed_hash_from 0 bytes.

(** A byte index whose successor fits in sixteen bits. *)
Definition small_index (b : Z) : Prop := 0 <= b < 65535.

(** What [operator<<] of an AttackPoint writes between the braces when it
    returns: nothing for the kind it has no name for. *)
Definition text_in_braces (k : AttackPoint.Type_) : string :=
  match k with
  | AttackPoint.ATP_POINTER_RW => "ATP_POINTER_RW"
  | AttackPoint.ATP_FUNCTION_CALL => "ATP_FUNCTION_CALL"
  | AttackPoint.ATP_LARGE_BUFFER_AVAIL => EmptyString
  end.

(** ** Sample records *)

(** One pointer-access site, stored twice under different identifiers. *)
Definition pointer_atp_first : AttackPoint.t :=
  {| AttackPoint.id := 1; AttackPoint.file := "a.c"; AttackPoint.line := 10;
     AttackPoint.type := AttackPoint.ATP_POINTER_RW |}.

Definition pointer_atp_again : AttackPoint.t :=
  {| AttackPoint.id := 2; AttackPoint.file := "a.c"; AttackPoint.line := 10;
     AttackPoint.type := AttackPoint.ATP_POINTER_RW |}.

Definition dua_tcn_3 : Dua.t :=
  {| Dua.id := 1; Dua.lval := 4096; Dua.viable_bytes := [8192; 0; 8256];
     Dua.all_labels := [1; 2; 3]; Dua.inputfile := "toy.bin"; Dua.max_tcn := 3;
     Dua.max_cardinality := 2; Dua.instr := 1000; Dua.fake_dua := false |}.

Definition dua_tcn_7 : Dua.t :=
  {| Dua.id := 2; Dua.lval := 4096; Dua.viable_bytes := [8192; 0; 8256];
     Dua.all_labels := [1; 2; 3]; Dua.inputfile := "toy.bin"; Dua.max_tcn := 7;
     Dua.max_cardinality := 2; Dua.instr := 1000; Dua.fake_dua := false |}.

Definition dua_relabelled : Dua.t :=
  {| Dua.id := 9; Dua.lval := 4096; Dua.viable_bytes := [8192; 0; 8256];
     Dua.all_labels := [5]; Dua.inputfile := "toy.bin"; Dua.max_tcn := 3;
     Dua.max_cardinality := 2; Dua.instr := 1000; Dua.fake_dua := false |}.

(** Liveness 0.25 and 0.75. *)
Definition bug_quarter : Bug.t :=
  {| Bug.id := 1; Bug.dua := 12288; Bug.selected_bytes := [2; 5]; Bug.atp := 16384;
     Bug.max_liveness := SpecFloat.S754_finite false 1 (-2) |}.

Definition bug_three_quarters : Bug.t :=
  {| Bug.id := 2; Bug.dua := 12288; Bug.selected_bytes := [2; 5]; Bug.atp := 16384;
     Bug.max_liveness := SpecFloat.S754_finite false 3 (-2) |}.

(** The selection [2, 5], stored twice under different identifiers. *)
Definition modification_first : SourceModification.t :=
  {| SourceModification.id := 1; SourceModification.lval := 4096;
     SourceModification.selected_bytes := [2; 5];
     SourceModification.selected_bytes_hash := 393219;
     SourceModification.atp := 16384 |}.

Definition modification_again : SourceModification.t :=
  {| SourceModification.id := 2; SourceModification.lval := 4096;
     SourceModification.selected_bytes := [2; 5];
     SourceModification.selected_bytes_hash := 393219;
     SourceModification.atp := 16384 |}.

Definition buffer_atp : AttackPoint.t :=
  {| AttackPoint.id := 1; AttackPoint.file := "a.c"; AttackPoint.line := 10;
     AttackPoint.type := AttackPoint.ATP_LARGE_BUFFER_AVAIL |}.

(** * Proofs *)

(** ** The member types are strictly and totally ordered *)

Section Orders.

#[export] Instance Z_StrictTotal : StrictTotal Z.
Proof.
  split; unfold less, Z_Less.
  - apply Z.ltb_irrefl.
  - intros x y Hxy Hyx. apply Z.ltb_ge in Hxy, Hyx. lia.
Qed.

#[export] Instance pointer_StrictTotal (T : Type) : StrictTotal (pointer T).
Proof.
  split; unfold less, pointer_Less, pointer.
  - apply Z.ltb_irrefl.
  - intros x y Hxy Hyx. apply Z.ltb_ge in Hxy, Hyx. lia.
Qed.

#[export] Instance bool_StrictTotal : StrictTotal bool.
Proof.
  split; unfold less, bool_Less.
  - now intros [].
  - now intros [] [].
Qed.

Lemma string_compare_refl (s : string) : String.compare s s = Eq.
Proof.
  pose proof (String.compare_antisym s s) as H.
  destruct (String.compare s s); simpl in H; congruence.
Qed.

#[export] Instance string_StrictTotal : StrictTotal string.
Proof.
  split; unfold less, string_Less, String.ltb.
  - intros s. now rewrite string_compare_refl.
  - intros x y Hxy Hyx.
    rewrite String.compare_antisym in Hyx.
    destruct (String.compare x y) eqn:E; simpl in *; try discriminate.
    now apply String.compare_eq_iff.
Qed.

#[export] Instance Timing_StrictTotal : StrictTotal SourceLval.Timing.
Proof.
  split; unfold less, SourceLval.Timing_Less.
  - intros x. apply Z.ltb_irrefl.
  - now intros [] [].
Qed.

#[export] Instance Type_StrictTotal : StrictTotal AttackPoint.Type_.
Proof.
  split; unfold less, AttackPoint.Type_Less.
  - intros x. apply Z.ltb_irrefl.
  - now intros [] [].
Qed.

#[export] Instance tuple_end_StrictTotal : StrictTotal unit.
Proof.
  split.
  - reflexivity.
  - now intros [] [].
Qed.

Context {A B : Type} {LA : Less A} {LB : Less B}.
Context {SA : StrictTotal A} {SB : StrictTotal B}.

#[export] Instance vector_StrictTotal : StrictTotal (list A).
Proof.
  split; unfold less, vector_Less.
  - induction x as [|a v IH]; simpl; [reflexivity|].
    now rewrite less_irrefl.
  - induction x as [|a v IH]; intros [|b w]; simpl; try easy.
    destruct (less a b) eqn:Hab; [discriminate|].
    destruct (less b a) eqn:Hba; [discriminate|].
    intros Hvw Hwv.
    f_equal; [now apply less_connex | now apply IH].
Qed.

Lemma tuple_less_unfold (a a' : A) (b b' : B) :
  less (a, b) (a', b') = less a a' || (negb (less a' a) && less b b').
Proof. reflexivity. Qed.

#[export] Instance tuple_StrictTotal : StrictTotal (A * B).
Proof.
  split.
  - intros [a b]. rewrite tuple_less_unfold. now rewrite !less_irrefl.
  - intros [a b] [a' b']. rewrite !tuple_less_unfold.
    destruct (less a a') eqn:Haa; [discriminate|].
    destruct (less a' a) eqn:Ha'a; [discriminate|]; simpl.
    intros Hb Hb'.
    f_equal; now apply less_connex.
Qed.

End Orders.

(** Equivalence for a strict total [operator<] is equality of the compared
    values. *)
Lemma less_equivalent_iff {A : Type} {L : Less A} {S : StrictTotal A} (x y : A) :
  less x y = false /\ less y x = false <-> x = y.
Proof.
  split.
  - intros [Hxy Hyx]. now apply less_connex.
  - intros ->. split; apply less_irrefl.
Qed.

(** One step of the tuple comparison, read as a disjunction. *)
Lemma tuple_less_iff {A B : Type} {LA : Less A} {LB : Less B} {SA : StrictTotal A}
  (a a' : A) (b b' : B) :
  less (a, b) (a', b') = true <-> less a a' = true \/ (a = a' /\ less b b' = true).
Proof.
  rewrite tuple_less_unfold, orb_true_iff, andb_true_iff, negb_true_iff.
  split.
  - intros [H | [Hn Hb]]; [now left|].
    destruct (less a a') eqn:Haa; [now left|].
    right. split; [now apply less_connex | assumption].
  - intros [H | [-> Hb]]; [now left|].
    right. split; [apply less_irrefl | assumption].
Qed.

Lemma string_less_iff (s s' : string) : less s s' = true <-> String.compare s s' = Lt.
Proof.
  unfold less, string_Less, String.ltb.
  destruct (String.compare s s'); split; congruence.
Qed.

Lemma Z_less_iff (x y : Z) : less x y = true <-> x < y.
Proof. apply Z.ltb_lt. Qed.

Lemma tuple_end_less (x : unit) : less x x = true <-> False.
Proof. unfold less, tuple_end_Less. split; [discriminate | tauto]. Qed.

(** ** SourceLval *)

Example SourceLval_lt_by_timing :
  SourceLval.lt (SourceLval.mk 1 "a.c" 10 "x" SourceLval.BEFORE_OCCURRENCE)
                (SourceLval.mk 2 "a.c" 10 "x" SourceLval.AFTER_OCCURRENCE) = true.
Proof. reflexivity. Qed.

Example SourceLval_lt_line_before_ast_name :
  SourceLval.lt (SourceLval.mk 1 "a.c" 9 "z" SourceLval.AFTER_OCCURRENCE)
                (SourceLval.mk 2 "a.c" 10 "a" SourceLval.NULL_TIMING) = true /\
  SourceLval.lt (SourceLval.mk 2 "a.c" 10 "a" SourceLval.NULL_TIMING)
                (SourceLval.mk 1 "a.c" 9 "z" SourceLval.AFTER_OCCURRENCE) = false.
Proof. split; reflexivity. Qed.

Example SourceLval_lt_prefix_file :
  SourceLval.lt (SourceLval.mk 1 "a" 99 "z" SourceLval.AFTER_OCCURRENCE)
                (SourceLval.mk 2 "a.c" 1 "a" SourceLval.NULL_TIMING) = true.
Proof. reflexivity. Qed.

(** C7.  [SourceLval::operator<] is the lexicographic order on
    (file, line, ast_name, timing): a record is below another exactly when
    its tuple is lexicographically smaller, and two records are equivalent
    exactly when they agree on the tuple. *)
Theorem SourceLval_lt_lexicographic (a b : SourceLval.t) :
  (SourceLval.lt a b = true <->
   lexicographically_smaller (SourceLval.SourceLvalUniq a) (SourceLval.SourceLvalUniq b)) /\
  (equivalent SourceLval.lt a b <->
   SourceLval.SourceLvalUniq a = SourceLval.SourceLvalUniq b).
Proof.
  destruct a as [ia fa la na ta], b as [ib fb lb nb tb].
  unfold equivalent, SourceLval.lt, SourceLval.SourceLvalUniq, lexicographically_smaller.
  cbn [SourceLval.file SourceLval.line SourceLval.ast_name SourceLval.timing].
  split.
  - rewrite !tuple_less_iff, tuple_end_less, !string_less_iff.
    unfold uint32_t. rewrite Z_less_iff.
    change (less ta tb = true) with
      ((SourceLval.Timing_value ta <? SourceLval.Timing_value tb) = true).
    rewrite Z.ltb_lt. tauto.
  - rewrite less_equivalent_iff. split; intros H; injection H as -> -> -> ->; reflexivity.
Qed.

(** ** Dua *)

Lemma Dua_tied_DuaUniq (a b : Dua.t) :
  Dua.tied a = Dua.tied b -> Dua.DuaUniq a = Dua.DuaUniq b.
Proof.
  unfold Dua.tied, Dua.DuaUniq. intros H. injection H as Hl _ Hf _ _ Hi _.
  now rewrite Hl, Hf, Hi.
Qed.

(** C1.  The code at the failing input: two candidates with the same lval,
    input file and instruction count, the three members of the index
    [DuaUniq], one with [max_tcn] 3 and one with 7.  [Dua::operator<] puts
    the first below the second, so they are not equivalent for it, although
    the index declared in the same struct makes them one record. *)
Lemma Dua_lt_separates_equal_DuaUniq :
  Dua.DuaUniq dua_tcn_3 = Dua.DuaUniq dua_tcn_7 /\
  Dua.lt dua_tcn_3 dua_tcn_7 = true /\
  ~ equivalent Dua.lt dua_tcn_3 dua_tcn_7.
Proof.
  split; [reflexivity|]. split; [reflexivity|].
  intros [H _]. discriminate H.
Qed.

(** What [Dua::operator<] compares: two Dua candidates are equivalent for
    it exactly when they agree on the seven members it ties: lval,
    viable_bytes, inputfile, max_tcn, max_cardinality, instr and fake_dua.
    Only [id] and [all_labels] play no part. *)
Theorem Dua_lt_equivalent_iff_tied (a b : Dua.t) :
  equivalent Dua.lt a b <-> Dua.tied a = Dua.tied b.
Proof.
  destruct a as [ia la va aa fa ta ca na ka], b as [ib lb vb ab fb tb cb nb kb].
  unfold equivalent, Dua.lt, Dua.tied.
  cbn [Dua.lval Dua.viable_bytes Dua.inputfile Dua.max_tcn Dua.max_cardinality
       Dua.instr Dua.fake_dua].
  rewrite less_equivalent_iff.
  split; intros H; injection H; intros; subst; reflexivity.
Qed.

Example Dua_lt_ignores_all_labels :
  Dua.all_labels dua_tcn_3 <> Dua.all_labels dua_relabelled /\
  equivalent Dua.lt dua_tcn_3 dua_relabelled.
Proof. split; [discriminate | split; reflexivity]. Qed.

(** ** Bug *)

(** C3.  Two Bug candidates with the same attack point, the same Dua and the
    same selected bytes are equivalent for [Bug::operator<], whatever their
    [max_liveness] (and [id]). *)
Theorem Bug_lt_equivalent_on_BugUniq (a b : Bug.t) :
  Bug.atp a = Bug.atp b ->
  Bug.dua a = Bug.dua b ->
  Bug.selected_bytes a = Bug.selected_bytes b ->
  equivalent Bug.lt a b.
Proof.
  intros Hatp Hdua Hsel.
  unfold equivalent, Bug.lt. rewrite Hatp, Hdua, Hsel.
  split; apply less_irrefl.
Qed.

Lemma Bug_lt_equivalent_on_BugUniq_witness :
  Bug.max_liveness bug_quarter <> Bug.max_liveness bug_three_quarters /\
  equivalent Bug.lt bug_quarter bug_three_quarters.
Proof.
  split.
  - discriminate.
  - apply (Bug_lt_equivalent_on_BugUniq bug_quarter bug_three_quarters); reflexivity.
Defined.

Lemma Bug_lt_equivalent_iff (a b : Bug.t) :
  equivalent Bug.lt a b <-> Bug.BugUniq a = Bug.BugUniq b.
Proof.
  destruct a as [ia da sa pa ma], b as [ib db sb pb mb].
  unfold equivalent, Bug.lt, Bug.BugUniq. cbn [Bug.atp Bug.dua Bug.selected_bytes].
  rewrite less_equivalent_iff.
  split; intros H; injection H; intros; subst; reflexivity.
Qed.

(** ** The byte-selection hash *)

Section HashFacts.

Variable oversized_shift : Z -> Z -> Z.

Lemma add32_range (a b : Z) : 0 <= add32 a b < 2 ^ 32.
Proof. unfold add32. apply Z.mod_pos_bound. lia. Qed.

Lemma shl32_range (x s : Z) : 0 <= shl32 oversized_shift x s < 2 ^ 32.
Proof. unfold shl32. apply Z.mod_pos_bound. lia. Qed.

(** Exclusive-or does not leave the low 32 bits. *)
Lemma lxor_range32 (a b : Z) :
  0 <= a < 2 ^ 32 -> 0 <= b < 2 ^ 32 -> 0 <= Z.lxor a b < 2 ^ 32.
Proof.
  intros Ha Hb.
  assert (E : Z.lxor a b mod 2 ^ 32 = Z.lxor a b).
  { apply Z.bits_inj'. intros n Hn.
    destruct (Z.ltb_spec n 32) as [Hlow | Hhigh].
    - now rewrite Z.mod_pow2_bits_low.
    - rewrite Z.mod_pow2_bits_high, Z.lxor_spec by lia.
      rewrite <- (Z.mod_small a (2 ^ 32)), <- (Z.mod_small b (2 ^ 32)) by lia.
      now rewrite !Z.mod_pow2_bits_high by lia. }
  rewrite <- E. apply Z.mod_pos_bound. lia.
Qed.

Lemma xor_terms_range (bytes : list uint32_t) (positions : list nat) :
  0 <= fold_right Z.lxor 0 (map (hash_term oversized_shift bytes) positions) < 2 ^ 32.
Proof.
  induction positions as [|i positions IH]; simpl.
  - lia.
  - apply lxor_range32; [apply shl32_range | exact IH].
Qed.

(** The loop counter as a position: the count of the shift. *)
Lemma shift_amount_counter (k : nat) : 16 * (Z.of_nat k mod 4) = shift_amount k.
Proof. unfold shift_amount. now rewrite Nat2Z.inj_mod. Qed.

(** The loop, started at position [k] with hash [h], adds the terms of the
    [remaining] positions from [k] on. *)
Lemma hash_loop_terms (bytes : list uint32_t) (remaining k : nat) (h : Z) :
  SourceModification.hash_loop oversized_shift bytes remaining (Z.of_nat k) h =
  Z.lxor h (fold_right Z.lxor 0 (map (hash_term oversized_shift bytes) (seq k remaining))).
Proof.
  revert k h. induction remaining as [|r IH]; intros k h.
  - simpl. now rewrite Z.lxor_0_r.
  - cbn [SourceModification.hash_loop seq map fold_right].
    replace (Z.of_nat k + 1) with (Z.of_nat (S k)) by lia.
    rewrite IH, Nat2Z.id, shift_amount_counter, Z.lxor_assoc.
    reflexivity.
Qed.

Lemma hash_loop_xor_over_positions (bytes : list uint32_t) :
  SourceModification.hash_loop oversized_shift bytes (List.length bytes) 0 0 =
  xor_over_positions oversized_shift bytes.
Proof.
  change 0 with (Z.of_nat 0) at 1.
  rewrite hash_loop_terms. apply Z.lxor_0_l.
Qed.

End HashFacts.

Lemma shift_amount_period (i : nat) : shift_amount (i + 4) = shift_amount i.
Proof.
  unfold shift_amount. f_equal. f_equal.
  rewrite <- Nat.Div0.add_mod_idemp_r. simpl (4 mod 4)%nat. now rewrite Nat.add_0_r.
Qed.

Example hash_2_5 (oversized_shift : Z -> Z -> Z) :
  SourceModification.hash_loop oversized_shift [2; 5] 2 0 0 = 393219.
Proof. reflexivity. Qed.

(** On x86 the fifth index falls on the first one's bits again, and the
    third on the first one's as well. *)
Example hash_five_zeros_masked :
  SourceModification.hash_loop masked_shift [0; 0; 0; 0; 0] 5 0 0 = 1.
Proof. reflexivity. Qed.

(** The loop as a fold: the constructor returns a record whose hash is the
    exclusive-or of one term per position, each term being what the code's
    own 32-bit sum and shift yield there.  The counts handed to the shift
    are 0, 16, 32, 48 and repeat with period four; what the shift does with
    a count of 32 or 48 is left open here. *)
Lemma SourceModification_hash_xor_over_positions
  (oversized_shift : Z -> Z -> Z)
  (_lval : pointer SourceLval.t) (_bytes : list uint32_t) (_atp : pointer AttackPoint.t) :
  (exists m : SourceModification.t,
     SourceModification.new oversized_shift _lval _bytes _atp = Returns m /\
     SourceModification.selected_bytes m = _bytes /\
     SourceModification.selected_bytes_hash m = xor_over_positions oversized_shift _bytes /\
     0 <= SourceModification.selected_bytes_hash m < 2 ^ 64) /\
  map shift_amount [0; 1; 2; 3]%nat = [0; 16; 32; 48] /\
  (forall i : nat, shift_amount (i + 4) = shift_amount i).
Proof.
  split; [|split; [reflexivity | exact shift_amount_period]].
  eexists. split; [reflexivity|].
  cbn [SourceModification.selected_bytes SourceModification.selected_bytes_hash].
  rewrite hash_loop_xor_over_positions.
  split; [reflexivity|]. split; [reflexivity|].
  pose proof (xor_terms_range oversized_shift _bytes (seq 0 (List.length _bytes))) as H.
  unfold xor_over_positions. lia.
Qed.

(** C5.  The stored hash depends on the ordered selection only: two
    constructions from the same sequence, with any lvals and attack points,
    both return a record, and the two hashes are the same value, the
    exclusive-or over the positions of the sequence. *)
Theorem SourceModification_hash_function_of_bytes
  (oversized_shift : Z -> Z -> Z) (_bytes : list uint32_t)
  (lval1 lval2 : pointer SourceLval.t) (atp1 atp2 : pointer AttackPoint.t) :
  exists m1 m2 : SourceModification.t,
    SourceModification.new oversized_shift lval1 _bytes atp1 = Returns m1 /\
    SourceModification.new oversized_shift lval2 _bytes atp2 = Returns m2 /\
    SourceModification.selected_bytes_hash m1 = SourceModification.selected_bytes_hash m2 /\
    SourceModification.selected_bytes_hash m1 = xor_over_positions oversized_shift _bytes.
Proof.
  do 2 eexists. split; [reflexivity|]. split; [reflexivity|].
  split; [reflexivity|].
  apply hash_loop_xor_over_positions.
Qed.

(** C6.  The hash is sensitive to order: the selections [0, 1] and [1, 0]
    hold the same indices, and their hashes differ (131073 and 65538),
    whatever a 32-bit shift by 32 or more yields. *)
Theorem SourceModification_hash_order_sensitive :
  exists bytes1 bytes2 : list uint32_t,
    Permutation bytes1 bytes2 /\
    forall (oversized_shift : Z -> Z -> Z)
           (_lval : pointer SourceLval.t) (_atp : pointer AttackPoint.t),
    exists m1 m2 : SourceModification.t,
      SourceModification.new oversized_shift _lval bytes1 _atp = Returns m1 /\
      SourceModification.new oversized_shift _lval bytes2 _atp = Returns m2 /\
      SourceModification.selected_bytes_hash m1 = 131073 /\
      SourceModification.selected_bytes_hash m2 = 65538 /\
      SourceModification.selected_bytes_hash m1 <> SourceModification.selected_bytes_hash m2.
Proof.
  exists [0; 1], [1; 0]. split; [apply perm_swap|].
  intros oversized_shift _lval _atp.
  do 2 eexists. split; [reflexivity|]. split; [reflexivity|].
  cbn [SourceModification.selected_bytes_hash].
  split; [reflexivity|]. split; [reflexivity|].
  discriminate.
Qed.

(** ** SourceModification *)

(** C2, as the claim states it, fails: the selections [0, 0] and [65536]
    at one attack point and one lval give the same hash, since
    [1 ^ (1 << 16)] and [65536 + 1] are both 65537; the two records are
    equivalent for [SourceModification::operator<]. *)
Lemma SourceModification_lt_merges_distinct_selections :
  exists m1 m2 : SourceModification.t,
    SourceModification.new masked_shift 4096 [0; 0] 16384 = Returns m1 /\
    SourceModification.new masked_shift 4096 [65536] 16384 = Returns m2 /\
    SourceModification.atp m1 = SourceModification.atp m2 /\
    SourceModification.lval m1 = SourceModification.lval m2 /\
    SourceModification.selected_bytes m1 <> SourceModification.selected_bytes m2 /\
    equivalent SourceModification.lt m1 m2.
Proof.
  do 2 eexists. split; [reflexivity|]. split; [reflexivity|].
  split; [reflexivity|]. split; [reflexivity|].
  split; [discriminate|]. split; reflexivity.
Qed.

(** C2, amended.  Two SourceModification records are equivalent for
    [SourceModification::operator<] exactly when they agree on attack point,
    lval and [selected_bytes_hash].  Records whose hash is the
    constructor's and which agree on (attack point, lval, selected-byte
    sequence) are therefore equivalent; the converse is not claimed. *)
Theorem SourceModification_lt_equivalent_iff_hash
  (oversized_shift : Z -> Z -> Z) (a b : SourceModification.t) :
  (equivalent SourceModification.lt a b <->
   SourceModification.atp a = SourceModification.atp b /\
   SourceModification.lval a = SourceModification.lval b /\
   SourceModification.selected_bytes_hash a = SourceModification.selected_bytes_hash b) /\
  (hash_consistent oversized_shift a ->
   hash_consistent oversized_shift b ->
   SourceModification.SourceModificationUniq a = SourceModification.SourceModificationUniq b ->
   equivalent SourceModification.lt a b).
Proof.
  assert (Hiff : equivalent SourceModification.lt a b <->
            SourceModification.atp a = SourceModification.atp b /\
            SourceModification.lval a = SourceModification.lval b /\
            SourceModification.selected_bytes_hash a =
            SourceModification.selected_bytes_hash b).
  { unfold equivalent, SourceModification.lt. rewrite less_equivalent_iff.
    split.
    - intros H. injection H as -> -> ->. auto.
    - intros (-> & -> & ->). reflexivity. }
  split; [exact Hiff|].
  unfold hash_consistent, SourceModification.SourceModificationUniq.
  intros Ha Hb Hkey. injection Hkey as Hatp Hlval Hsel.
  apply Hiff. rewrite Ha, Hb, Hsel. auto.
Qed.

Lemma SourceModification_lt_equivalent_iff_hash_witness :
  hash_consistent masked_shift modification_first /\
  hash_consistent masked_shift modification_again /\
  SourceModification.SourceModificationUniq modification_first =
  SourceModification.SourceModificationUniq modification_again /\
  equivalent SourceModification.lt modification_first modification_again.
Proof.
  assert (Ha : hash_consistent masked_shift modification_first) by reflexivity.
  assert (Hb : hash_consistent masked_shift modification_again) by reflexivity.
  assert (Hk : SourceModification.SourceModificationUniq modification_first =
               SourceModification.SourceModificationUniq modification_again)
    by reflexivity.
  split; [exact Ha|]. split; [exact Hb|]. split; [exact Hk|].
  exact (proj2 (SourceModification_lt_equivalent_iff_hash
                  masked_shift modification_first modification_again) Ha Hb Hk).
Defined.

(** C9, as the claim states it, fails: constructing a SourceModification
    with an empty selection returns a record. *)
Lemma SourceModification_new_accepts_empty_selection :
  exists m : SourceModification.t,
    SourceModification.new masked_shift 4096 [] 16384 = Returns m /\
    SourceModification.selected_bytes m = [] /\
    SourceModification.new masked_shift 4096 [] 16384 <> AssertionFailed.
Proof.
  eexists. split; [reflexivity|]. split; [reflexivity | discriminate].
Qed.

(** C9, amended.  Constructing a SourceModification with an empty selection
    succeeds: the constructor returns the record with the given lval and
    attack point, an empty selection and hash 0.  It checks nothing: no
    selection makes it fail. *)
Theorem SourceModification_new_empty_selection
  (oversized_shift : Z -> Z -> Z)
  (_lval : pointer SourceLval.t) (_atp : pointer AttackPoint.t) :
  SourceModification.new oversized_shift _lval [] _atp =
  Returns {| SourceModification.id := 0;
             SourceModification.lval := _lval;
             SourceModification.selected_bytes := [];
             SourceModification.selected_bytes_hash := 0;
             SourceModification.atp := _atp |} /\
  (forall _bytes : list uint32_t,
      SourceModification.new oversized_shift _lval _bytes _atp <> AssertionFailed).
Proof.
  split.
  - reflexivity.
  - intros _bytes. unfold SourceModification.new. discriminate.
Qed.

(** The constructor returns for every argument. *)
Lemma SourceModification_new_total
  (oversized_shift : Z -> Z -> Z)
  (_lval : pointer SourceLval.t) (_bytes : list uint32_t) (_atp : pointer AttackPoint.t) :
  exists m, SourceModification.new oversized_shift _lval _bytes _atp = Returns m.
Proof. eexists. reflexivity. Qed.

(** ** AttackPoint *)

(** With [NDEBUG] the assertion is compiled out and the braces stay empty. *)
Example AttackPoint_stream_out_NDEBUG :
  AttackPoint.stream_out true EmptyString buffer_atp = Returns "ATP [a.c:10] {}"%string.
Proof. reflexivity. Qed.

Example AttackPoint_stream_out_pointer_rw :
  AttackPoint.stream_out false EmptyString
    (AttackPoint.mk 2 "a.c" 10 AttackPoint.ATP_POINTER_RW)
  = Returns "ATP [a.c:10] {ATP_POINTER_RW}"%string.
Proof. reflexivity. Qed.

(** C10.  With assertions enabled, printing an AttackPoint returns exactly
    for the kinds ATP_POINTER_RW and ATP_FUNCTION_CALL, and stops at
    [assert(false)] exactly for ATP_LARGE_BUFFER_AVAIL; a well-formed
    AttackPoint of that kind exists. *)
Theorem AttackPoint_stream_out_asserts :
  (forall (os : ostream) (m : AttackPoint.t),
      (AttackPoint.stream_out false os m = AssertionFailed <->
       AttackPoint.type m = AttackPoint.ATP_LARGE_BUFFER_AVAIL) /\
      ((exists os', AttackPoint.stream_out false os m = Returns os') <->
       AttackPoint.type m = AttackPoint.ATP_POINTER_RW \/
       AttackPoint.type m = AttackPoint.ATP_FUNCTION_CALL)) /\
  AttackPoint.type buffer_atp = AttackPoint.ATP_LARGE_BUFFER_AVAIL /\
  (forall os : ostream, AttackPoint.stream_out false os buffer_atp = AssertionFailed).
Proof.
  split; [|split; reflexivity].
  intros os [i f l k]. unfold AttackPoint.stream_out.
  cbn [AttackPoint.type AttackPoint.file AttackPoint.line].
  destruct k; cbn [AttackPoint.Type_eqb AttackPoint.Type_value Z.eqb cassert orb bind];
    (split; split).
  all: try discriminate.
  all: try reflexivity.
  all: try (intros [os' H]; discriminate H).
  all: try (intros [H | H]; discriminate H).
  all: try (intros _; eexists; reflexivity).
  all: try (intros _; auto).
Qed.

(** * Further properties of the code *)

(** ** Every [operator<] is a strict weak ordering *)

Section Transitivity.

#[export] Instance Z_LessTransitive : LessTransitive Z.
Proof.
  intros x y z Hxy Hyz. unfold less, Z_Less in *.
  apply Z.ltb_lt in Hxy, Hyz. apply Z.ltb_lt. lia.
Qed.

#[export] Instance pointer_LessTransitive (T : Type) : LessTransitive (pointer T).
Proof.
  intros x y z Hxy Hyz. unfold less, pointer_Less, pointer in *.
  apply Z.ltb_lt in Hxy, Hyz. apply Z.ltb_lt. lia.
Qed.

#[export] Instance bool_LessTransitive : LessTransitive bool.
Proof. intros [] [] []; unfold less, bool_Less; simpl; congruence. Qed.

#[export] Instance Timing_LessTransitive : LessTransitive SourceLval.Timing.
Proof.
  intros x y z Hxy Hyz. unfold less, SourceLval.Timing_Less in *.
  apply Z.ltb_lt in Hxy, Hyz. apply Z.ltb_lt. lia.
Qed.

#[export] Instance Type_LessTransitive : LessTransitive AttackPoint.Type_.
Proof.
  intros x y z Hxy Hyz. unfold less, AttackPoint.Type_Less in *.
  apply Z.ltb_lt in Hxy, Hyz. apply Z.ltb_lt. lia.
Qed.

#[export] Instance tuple_end_LessTransitive : LessTransitive unit.
Proof. intros x y z H. discriminate H. Qed.

Lemma ascii_compare_lt_trans (a b c : ascii) :
  Ascii.compare a b = Lt -> Ascii.compare b c = Lt -> Ascii.compare a c = Lt.
Proof.
  unfold Ascii.compare. rewrite !N.compare_lt_iff. apply N.lt_trans.
Qed.

Lemma string_compare_lt_trans (s1 s2 s3 : string) :
  String.compare s1 s2 = Lt -> String.compare s2 s3 = Lt -> String.compare s1 s3 = Lt.
Proof.
  revert s2 s3.
  induction s1 as [|a s1 IH]; intros [|b s2] [|c s3]; simpl; try congruence.
  destruct (Ascii.compare a b) eqn:Hab; try discriminate;
    destruct (Ascii.compare b c) eqn:Hbc; try discriminate; intros H12 H23.
  - apply Ascii.compare_eq_iff in Hab, Hbc. subst.
    rewrite (proj2 (N.compare_eq_iff _ _) eq_refl : Ascii.compare c c = Eq).
    now apply IH with s2.
  - apply Ascii.compare_eq_iff in Hab. subst. now rewrite Hbc.
  - apply Ascii.compare_eq_iff in Hbc. subst. now rewrite Hab.
  - now rewrite (ascii_compare_lt_trans a b c).
Qed.

#[export] Instance string_LessTransitive : LessTransitive string.
Proof.
  intros x y z. rewrite !string_less_iff. apply string_compare_lt_trans.
Qed.

Context {A B : Type} {LA : Less A} {LB : Less B}.
Context {SA : StrictTotal A} {SB : StrictTotal B}.
Context {TA : LessTransitive A} {TB : LessTransitive B}.

(** One step of the vector comparison, read as a disjunction. *)
Lemma vector_less_cons (x y : A) (v w : list A) :
  less (x :: v) (y :: w) = true <-> less x y = true \/ (x = y /\ less v w = true).
Proof.
  unfold less at 1, vector_Less. cbn [lexicographical_compare].
  destruct (less x y) eqn:Hxy.
  - split; auto.
  - destruct (less y x) eqn:Hyx.
    + split; [discriminate|].
      intros [H | [-> _]]; [discriminate|].
      rewrite less_irrefl in Hyx. discriminate.
    + rewrite (less_connex x y Hxy Hyx).
      split; [now right | now intros [H | [_ H]]; [discriminate|]].
Qed.

#[export] Instance vector_LessTransitive : LessTransitive (list A).
Proof.
  intros u. induction u as [|x u IH]; intros [|y v] [|z w]; try discriminate; auto.
  rewrite !vector_less_cons.
  intros [Hxy | [-> Huv]] [Hyz | [-> Hvw]].
  - left. now apply less_trans with y.
  - now left.
  - now left.
  - right. split; [reflexivity | now apply IH with v].
Qed.

#[export] Instance tuple_LessTransitive : LessTransitive (A * B).
Proof.
  intros [a1 b1] [a2 b2] [a3 b3]. rewrite !tuple_less_iff.
  intros [H12 | [-> H12]] [H23 | [-> H23]].
  - left. now apply less_trans with a2.
  - now left.
  - now left.
  - right. split; [reflexivity | now apply less_trans with b2].
Qed.

End Transitivity.

(** A comparison that ties a key ordered strictly, totally and transitively
    is a strict weak ordering, and its equivalence is equality of keys. *)
Section TiedKey.

Context {A K : Type} {L : Less K} {S : StrictTotal K} {T : LessTransitive K}.
Variable lt : A -> A -> bool.
Variable key : A -> K.
Hypothesis lt_key : forall a b, lt a b = less (key a) (key b).

Lemma tied_equivalent_iff (a b : A) : equivalent lt a b <-> key a = key b.
Proof. unfold equivalent. rewrite !lt_key. apply less_equivalent_iff. Qed.

Lemma tied_strict_weak_order : strict_weak_order lt.
Proof.
  unfold strict_weak_order. split; [|split; [|split]].
  - intros a. rewrite lt_key. apply less_irrefl.
  - intros a b Hab. rewrite lt_key in *.
    destruct (less (key b) (key a)) eqn:Hba; [|reflexivity].
    pose proof (less_trans _ _ _ Hab Hba) as Haa.
    rewrite less_irrefl in Haa. discriminate.
  - intros a b c. rewrite !lt_key. apply less_trans.
  - intros a b c Hab Hbc.
    apply tied_equivalent_iff. apply tied_equivalent_iff in Hab, Hbc. congruence.
Qed.

End TiedKey.

(** [SourceLval::operator<] is a strict weak ordering. *)
Theorem SourceLval_lt_strict_weak_order : strict_weak_order SourceLval.lt.
Proof.
  apply (tied_strict_weak_order SourceLval.lt
           (fun x => std_tie [SourceLval.file x; SourceLval.line x;
                              SourceLval.ast_name x; SourceLval.timing x])).
  intros a b. reflexivity.
Qed.

(** [LabelSet::operator<] is a strict weak ordering, and two label sets are
    equivalent for it exactly when they agree on ptr, inputfile and labels,
    the members of the index [LabelSetUniq]. *)
Theorem LabelSet_lt_strict_weak_order :
  strict_weak_order LabelSet.lt /\
  forall a b : LabelSet.t,
    equivalent LabelSet.lt a b <->
    LabelSet.ptr a = LabelSet.ptr b /\
    LabelSet.inputfile a = LabelSet.inputfile b /\
    LabelSet.labels a = LabelSet.labels b.
Proof.
  pose (key := fun x => std_tie [LabelSet.ptr x; LabelSet.inputfile x; LabelSet.labels x]).
  assert (Hkey : forall a b, LabelSet.lt a b = less (key a) (key b)) by reflexivity.
  split; [exact (tied_strict_weak_order LabelSet.lt key Hkey)|].
  intros a b. rewrite (tied_equivalent_iff LabelSet.lt key Hkey). unfold key.
  split.
  - intros H. injection H as -> -> ->. auto.
  - intros (-> & -> & ->). reflexivity.
Qed.

(** [Dua::operator<] is a strict weak ordering. *)
Theorem Dua_lt_strict_weak_order : strict_weak_order Dua.lt.
Proof.
  apply (tied_strict_weak_order Dua.lt
           (fun x => std_tie [Dua.lval x; Dua.viable_bytes x; Dua.inputfile x;
                              Dua.max_tcn x; Dua.max_cardinality x; Dua.instr x;
                              Dua.fake_dua x])).
  intros a b. reflexivity.
Qed.

(** [Dua::operator<] never merges what the index [DuaUniq] separates: two
    candidates equivalent for it have the same lval, input file and
    instruction count. *)
Theorem Dua_lt_equivalent_refines_DuaUniq (a b : Dua.t) :
  equivalent Dua.lt a b -> Dua.DuaUniq a = Dua.DuaUniq b.
Proof.
  pose (key := fun x => std_tie [Dua.lval x; Dua.viable_bytes x; Dua.inputfile x;
                                 Dua.max_tcn x; Dua.max_cardinality x; Dua.instr x;
                                 Dua.fake_dua x]).
  assert (Hkey : forall a b, Dua.lt a b = less (key a) (key b)) by reflexivity.
  rewrite (tied_equivalent_iff Dua.lt key Hkey). unfold key, Dua.DuaUniq.
  intros H. injection H as Hl _ Hf _ _ Hi _. now rewrite Hl, Hf, Hi.
Qed.

Lemma Dua_lt_equivalent_refines_DuaUniq_witness :
  equivalent Dua.lt dua_tcn_3 dua_relabelled /\
  Dua.DuaUniq dua_tcn_3 = Dua.DuaUniq dua_relabelled.
Proof.
  assert (H : equivalent Dua.lt dua_tcn_3 dua_relabelled) by (split; reflexivity).
  split; [exact H|].
  exact (Dua_lt_equivalent_refines_DuaUniq dua_tcn_3 dua_relabelled H).
Defined.

(** [AttackPoint::operator<] is a strict weak ordering, and two attack
    points are equivalent for it exactly when they agree on file, line and
    type, the members of the index [AttackPointUniq]. *)
Theorem AttackPoint_lt_strict_weak_order :
  strict_weak_order AttackPoint.lt /\
  forall a b : AttackPoint.t,
    equivalent AttackPoint.lt a b <->
    AttackPoint.file a = AttackPoint.file b /\
    AttackPoint.line a = AttackPoint.line b /\
    AttackPoint.type a = AttackPoint.type b.
Proof.
  pose (key := fun x => std_tie [AttackPoint.file x; AttackPoint.line x;
                                 AttackPoint.type x]).
  assert (Hkey : forall a b, AttackPoint.lt a b = less (key a) (key b)) by reflexivity.
  split; [exact (tied_strict_weak_order AttackPoint.lt key Hkey)|].
  intros a b. rewrite (tied_equivalent_iff AttackPoint.lt key Hkey). unfold key.
  split.
  - intros H. injection H as -> -> ->. auto.
  - intros (-> & -> & ->). reflexivity.
Qed.

(** [Bug::operator<] is a strict weak ordering, and two bugs are equivalent
    for it exactly when they agree on attack point, Dua and selected bytes,
    the members of the index [BugUniq]. *)
Theorem Bug_lt_strict_weak_order :
  strict_weak_order Bug.lt /\
  forall a b : Bug.t, equivalent Bug.lt a b <-> Bug.BugUniq a = Bug.BugUniq b.
Proof.
  pose (key := fun x => std_tie [Bug.atp x; Bug.dua x; Bug.selected_bytes x]).
  assert (Hkey : forall a b, Bug.lt a b = less (key a) (key b)) by reflexivity.
  split; [exact (tied_strict_weak_order Bug.lt key Hkey)|].
  intros a b. rewrite (tied_equivalent_iff Bug.lt key Hkey). unfold key, Bug.BugUniq.
  split; intros H; injection H as -> -> ->; reflexivity.
Qed.

(** [SourceModification::operator<] is a strict weak ordering. *)
Theorem SourceModification_lt_strict_weak_order :
  strict_weak_order SourceModification.lt.
Proof.
  apply (tied_strict_weak_order SourceModification.lt
           (fun x => std_tie [SourceModification.atp x; SourceModification.lval x;
                              SourceModification.selected_bytes_hash x])).
  intros a b. reflexivity.
Qed.

(** [Build::operator<] is a strict weak ordering, and two builds are
    equivalent for it exactly when they agree on bugs, output and compile:
    only [id] is left out. *)
Theorem Build_lt_strict_weak_order :
  strict_weak_order Build.lt /\
  forall a b : Build.t,
    equivalent Build.lt a b <->
    Build.bugs a = Build.bugs b /\
    Build.output a = Build.output b /\
    Build.compile a = Build.compile b.
Proof.
  pose (key := fun x => std_tie [Build.bugs x; Build.output x; Build.compile x]).
  assert (Hkey : forall a b, Build.lt a b = less (key a) (key b)) by reflexivity.
  split; [exact (tied_strict_weak_order Build.lt key Hkey)|].
  intros a b. rewrite (tied_equivalent_iff Build.lt key Hkey). unfold key.
  split.
  - intros H. injection H as -> -> ->. auto.
  - intros (-> & -> & ->). reflexivity.
Qed.

(** [Run::operator<] is a strict weak ordering, and two runs are equivalent
    for it exactly when they agree on build, fuzzed, exitcode, output and
    success: only [id] is left out. *)
Theorem Run_lt_strict_weak_order :
  strict_weak_order Run.lt /\
  forall a b : Run.t,
    equivalent Run.lt a b <->
    Run.build a = Run.build b /\
    Run.fuzzed a = Run.fuzzed b /\
    Run.exitcode a = Run.exitcode b /\
    Run.output a = Run.output b /\
    Run.success a = Run.success b.
Proof.
  pose (key := fun x => std_tie [Run.build x; Run.fuzzed x; Run.exitcode x;
                                 Run.output x; Run.success x]).
  assert (Hkey : forall a b, Run.lt a b = less (key a) (key b)) by reflexivity.
  split; [exact (tied_strict_weak_order Run.lt key Hkey)|].
  intros a b. rewrite (tied_equivalent_iff Run.lt key Hkey). unfold key.
  split.
  - intros H. injection H as -> -> -> -> ->. auto.
  - intros (-> & -> & -> & -> & ->). reflexivity.
Qed.

(** [SourceFunction::operator<] is a strict weak ordering, and two functions
    are equivalent for it exactly when they agree on file, line and name,
    the members of the index [SourceFunctionUniq]. *)
Theorem SourceFunction_lt_strict_weak_order :
  strict_weak_order SourceFunction.lt /\
  forall a b : SourceFunction.t,
    equivalent SourceFunction.lt a b <->
    SourceFunction.file a = SourceFunction.file b /\
    SourceFunction.line a = SourceFunction.line b /\
    SourceFunction.name a = SourceFunction.name b.
Proof.
  pose (key := fun x => std_tie [SourceFunction.file x; SourceFunction.line x;
                                 SourceFunction.name x]).
  assert (Hkey : forall a b, SourceFunction.lt a b = less (key a) (key b)) by reflexivity.
  split; [exact (tied_strict_weak_order SourceFunction.lt key Hkey)|].
  intros a b. rewrite (tied_equivalent_iff SourceFunction.lt key Hkey). unfold key.
  split.
  - intros H. injection H as -> -> ->. auto.
  - intros (-> & -> & ->). reflexivity.
Qed.

(** [Call::operator<] is a strict weak ordering, and two calls are
    equivalent for it exactly when they agree on call_instr, ret_instr,
    called_function, callsite_file and callsite_line, the members of the
    index [CallUniq]. *)
Theorem Call_lt_strict_weak_order :
  strict_weak_order Call.lt /\
  forall a b : Call.t,
    equivalent Call.lt a b <->
    Call.call_instr a = Call.call_instr b /\
    Call.ret_instr a = Call.ret_instr b /\
    Call.called_function a = Call.called_function b /\
    Call.callsite_file a = Call.callsite_file b /\
    Call.callsite_line a = Call.callsite_line b.
Proof.
  pose (key := fun x => std_tie [Call.call_instr x; Call.ret_instr x;
                                 Call.called_function x; Call.callsite_file x;
                                 Call.callsite_line x]).
  assert (Hkey : forall a b, Call.lt a b = less (key a) (key b)) by reflexivity.
  split; [exact (tied_strict_weak_order Call.lt key Hkey)|].
  intros a b. rewrite (tied_equivalent_iff Call.lt key Hkey). unfold key.
  split.
  - intros H. injection H as -> -> -> -> ->. auto.
  - intros (-> & -> & -> & -> & ->). reflexivity.
Qed.

(** ** More on the byte-selection hash *)

Section HashAlgebra.

Variable oversized_shift : Z -> Z -> Z.

(** What the constructor returns. *)
Lemma new_returns (_lval : pointer SourceLval.t) (_bytes : list uint32_t)
  (_atp : pointer AttackPoint.t) (m : SourceModification.t) :
  SourceModification.new oversized_shift _lval _bytes _atp = Returns m ->
  SourceModification.id m = 0 /\
  SourceModification.lval m = _lval /\
  SourceModification.selected_bytes m = _bytes /\
  SourceModification.atp m = _atp /\
  SourceModification.selected_bytes_hash m = xor_over_positions oversized_shift _bytes.
Proof.
  unfold SourceModification.new. intros H. injection H as <-.
  cbn [SourceModification.id SourceModification.lval SourceModification.selected_bytes
       SourceModification.atp SourceModification.selected_bytes_hash].
  rewrite hash_loop_xor_over_positions. auto.
Qed.

Lemma fold_lxor_app (xs ys : list Z) :
  fold_right Z.lxor 0 (xs ++ ys) =
  Z.lxor (fold_right Z.lxor 0 xs) (fold_right Z.lxor 0 ys).
Proof.
  induction xs as [|x xs IH]; cbn [app fold_right].
  - now rewrite Z.lxor_0_l.
  - now rewrite IH, Z.lxor_assoc.
Qed.

Lemma seq_from (n len : nat) : seq n len = map (fun i => (n + i)%nat) (seq 0 len).
Proof.
  induction n as [|n IH]; simpl.
  - now rewrite map_id.
  - rewrite <- seq_shift, IH, map_map. reflexivity.
Qed.

Lemma shift_amount_after_multiple (n i : nat) :
  (n mod 4 = 0)%nat -> shift_amount (n + i) = shift_amount i.
Proof.
  intros Hn. unfold shift_amount.
  now rewrite <- Nat.Div0.add_mod_idemp_l, Hn.
Qed.

(** Terms agree where the selections and the positions' shifts agree. *)
Lemma xor_over_positions_app (bytes more : list uint32_t) :
  (List.length bytes mod 4 = 0)%nat ->
  xor_over_positions oversized_shift (bytes ++ more) =
  Z.lxor (xor_over_positions oversized_shift bytes)
         (xor_over_positions oversized_shift more).
Proof.
  intros Hlen. unfold xor_over_positions.
  rewrite length_app, seq_app, map_app, fold_lxor_app. f_equal.
  - f_equal. apply map_ext_in. intros i Hi. apply in_seq in Hi.
    unfold hash_term. rewrite app_nth1 by lia. reflexivity.
  - f_equal. cbn [Nat.add]. rewrite seq_from, map_map.
    apply map_ext. intros i. unfold hash_term.
    rewrite app_nth2_plus, shift_amount_after_multiple by assumption.
    reflexivity.
Qed.

End HashAlgebra.

Section ShortSelections.

Variable oversized_shift : Z -> Z -> Z.

Lemma shl32_by_0 (x : Z) : shl32 oversized_shift x 0 = x mod 2 ^ 32.
Proof. unfold shl32. cbn [Z.ltb Z.compare]. now rewrite Z.shiftl_0_r. Qed.

Lemma shl32_by_16 (x : Z) : shl32 oversized_shift x 16 = (x mod 2 ^ 16) * 2 ^ 16.
Proof.
  unfold shl32. change (16 <? 32) with true. cbv iota.
  rewrite Z.shiftl_mul_pow2 by lia.
  change (2 ^ 32) with (2 ^ 16 * 2 ^ 16).
  apply Zmult_mod_distr_r.
Qed.

(** Bits below 16 and bits from 16 up do not meet. *)
Lemma lxor_low_high (x y : Z) :
  0 <= x < 2 ^ 16 -> Z.lxor x (y * 2 ^ 16) = x + y * 2 ^ 16.
Proof.
  intros Hx. symmetry. apply Z.add_nocarry_lxor.
  apply Z.bits_inj'. intros n Hn. rewrite Z.land_spec, Z.bits_0.
  destruct (Z.ltb_spec n 16) as [Hlow | Hhigh].
  - rewrite Z.mul_pow2_bits_low by assumption. apply andb_false_r.
  - rewrite <- (Z.mod_small x (2 ^ 16)) by assumption.
    now rewrite Z.mod_pow2_bits_high by lia.
Qed.

Lemma hash_of_none : xor_over_positions oversized_shift [] = 0.
Proof. reflexivity. Qed.

Lemma hash_of_one (a : Z) :
  small_index a -> xor_over_positions oversized_shift [a] = a + 1.
Proof.
  unfold small_index. intros Ha.
  unfold xor_over_positions, hash_term. cbn [List.length seq map fold_right nth].
  change (shift_amount 0) with 0.
  rewrite shl32_by_0, Z.lxor_0_r. unfold add32.
  rewrite Z.mod_mod by lia. apply Z.mod_small. lia.
Qed.

Lemma hash_of_two (a b : Z) :
  small_index a -> small_index b ->
  xor_over_positions oversized_shift [a; b] = a + 1 + (b + 1) * 2 ^ 16.
Proof.
  unfold small_index. intros Ha Hb.
  unfold xor_over_positions, hash_term. cbn [List.length seq map fold_right nth].
  change (shift_amount 0) with 0. change (shift_amount 1) with 16.
  rewrite shl32_by_0, shl32_by_16, Z.lxor_0_r. unfold add32.
  rewrite Z.mod_mod by lia.
  rewrite (Z.mod_small (a + 1) (2 ^ 32)) by lia.
  rewrite (Z.mod_small (b + 1) (2 ^ 32)) by lia.
  rewrite (Z.mod_small (b + 1) (2 ^ 16)) by lia.
  apply lxor_low_high. lia.
Qed.

Lemma short_hash_injective (bytes bytes' : list uint32_t) :
  (List.length bytes <= 2)%nat -> (List.length bytes' <= 2)%nat ->
  Forall small_index bytes -> Forall small_index bytes' ->
  xor_over_positions oversized_shift bytes = xor_over_positions oversized_shift bytes' ->
  bytes = bytes'.
Proof.
  intros Hlen Hlen' Hs Hs'.
  destruct bytes as [|a [|b [|c bytes]]]; [| | |simpl in Hlen; lia];
    destruct bytes' as [|a' [|b' [|c' bytes']]]; try (simpl in Hlen'; lia).
  all: repeat match goal with
         | H : Forall _ (_ :: _) |- _ => inversion H; subst; clear H
         | H : Forall _ [] |- _ => clear H
         end.
  all: rewrite ?hash_of_none, ?hash_of_one, ?hash_of_two by assumption.
  all: unfold small_index in *; intros Heq.
  all: try reflexivity.
  all: try (exfalso; lia).
  all: f_equal; try f_equal; lia.
Qed.

End ShortSelections.

(** The stored hash never uses the upper half of its 64 bits: every term is
    an [unsigned int], and exclusive-or stays within 32 bits. *)
Theorem SourceModification_hash_fits_32_bits
  (oversized_shift : Z -> Z -> Z)
  (_lval : pointer SourceLval.t) (_bytes : list uint32_t) (_atp : pointer AttackPoint.t) :
  exists m : SourceModification.t,
    SourceModification.new oversized_shift _lval _bytes _atp = Returns m /\
    0 <= SourceModification.selected_bytes_hash m < 2 ^ 32.
Proof.
  eexists. split; [reflexivity|].
  cbn [SourceModification.selected_bytes_hash].
  rewrite hash_loop_xor_over_positions. apply xor_terms_range.
Qed.

(** On selections of at most two indices, each below 65535, the hash is
    injective: two such selections have the same hash exactly when they are
    the same sequence.  In particular a one-index selection never hashes
    like the empty one. *)
Theorem SourceModification_hash_injective_on_short_selections
  (oversized_shift : Z -> Z -> Z)
  (lval1 lval2 : pointer SourceLval.t) (atp1 atp2 : pointer AttackPoint.t)
  (bytes1 bytes2 : list uint32_t) :
  (List.length bytes1 <= 2)%nat -> (List.length bytes2 <= 2)%nat ->
  Forall small_index bytes1 -> Forall small_index bytes2 ->
  exists m1 m2 : SourceModification.t,
    SourceModification.new oversized_shift lval1 bytes1 atp1 = Returns m1 /\
    SourceModification.new oversized_shift lval2 bytes2 atp2 = Returns m2 /\
    (SourceModification.selected_bytes_hash m1 = SourceModification.selected_bytes_hash m2
     <-> bytes1 = bytes2).
Proof.
  intros Hlen1 Hlen2 Hs1 Hs2.
  do 2 eexists. split; [reflexivity|]. split; [reflexivity|].
  cbn [SourceModification.selected_bytes_hash].
  rewrite !hash_loop_xor_over_positions.
  split.
  - now apply short_hash_injective.
  - now intros ->.
Qed.

Lemma SourceModification_hash_injective_on_short_selections_witness :
  (List.length [2; 5] <= 2)%nat /\ (List.length [5; 2] <= 2)%nat /\
  Forall small_index [2; 5] /\ Forall small_index [5; 2] /\
  exists m1 m2 : SourceModification.t,
    SourceModification.new masked_shift 4096 [2; 5] 16384 = Returns m1 /\
    SourceModification.new masked_shift 4096 [5; 2] 16384 = Returns m2 /\
    (SourceModification.selected_bytes_hash m1 = SourceModification.selected_bytes_hash m2
     <-> [2; 5] = [5; 2]).
Proof.
  assert (H1 : (List.length [2; 5] <= 2)%nat) by (simpl; lia).
  assert (H2 : (List.length [5; 2] <= 2)%nat) by (simpl; lia).
  assert (H3 : Forall small_index [2; 5])
    by (repeat constructor; unfold small_index; lia).
  assert (H4 : Forall small_index [5; 2])
    by (repeat constructor; unfold small_index; lia).
  split; [exact H1|]. split; [exact H2|]. split; [exact H3|]. split; [exact H4|].
  exact (SourceModification_hash_injective_on_short_selections
           masked_shift 4096 4096 16384 16384 [2; 5] [5; 2] H1 H2 H3 H4).
Defined.

(** After a selection whose length is a multiple of four the shifts start
    over: the hash of [bytes ++ more] is the exclusive-or of the hashes of
    [bytes] and of [more]. *)
Theorem SourceModification_hash_of_concatenation
  (oversized_shift : Z -> Z -> Z)
  (_lval : pointer SourceLval.t) (_atp : pointer AttackPoint.t)
  (bytes more : list uint32_t) :
  (List.length bytes mod 4 = 0)%nat ->
  exists m1 m2 m : SourceModification.t,
    SourceModification.new oversized_shift _lval bytes _atp = Returns m1 /\
    SourceModification.new oversized_shift _lval more _atp = Returns m2 /\
    SourceModification.new oversized_shift _lval (bytes ++ more) _atp = Returns m /\
    SourceModification.selected_bytes_hash m =
    Z.lxor (SourceModification.selected_bytes_hash m1)
           (SourceModification.selected_bytes_hash m2).
Proof.
  intros Hlen.
  do 3 eexists. split; [reflexivity|]. split; [reflexivity|]. split; [reflexivity|].
  cbn [SourceModification.selected_bytes_hash].
  rewrite !hash_loop_xor_over_positions.
  now apply xor_over_positions_app.
Qed.

Lemma SourceModification_hash_of_concatenation_witness :
  (List.length [7; 1; 8; 3] mod 4 = 0)%nat /\
  exists m1 m2 m : SourceModification.t,
    SourceModification.new masked_shift 4096 [7; 1; 8; 3] 16384 = Returns m1 /\
    SourceModification.new masked_shift 4096 [2; 5] 16384 = Returns m2 /\
    SourceModification.new masked_shift 4096 ([7; 1; 8; 3] ++ [2; 5]) 16384 = Returns m /\
    SourceModification.selected_bytes_hash m =
    Z.lxor (SourceModification.selected_bytes_hash m1)
           (SourceModification.selected_bytes_hash m2).
Proof.
  assert (H : (List.length [7; 1; 8; 3] mod 4 = 0)%nat) by reflexivity.
  split; [exact H|].
  exact (SourceModification_hash_of_concatenation
           masked_shift 4096 16384 [7; 1; 8; 3] [2; 5] H).
Defined.

(** A selection whose length is a multiple of four, written twice in a row,
    hashes to 0 like the empty selection; at one lval and attack point the
    two records are equivalent for [SourceModification::operator<]. *)
Theorem SourceModification_doubled_selection_hashes_like_empty
  (oversized_shift : Z -> Z -> Z)
  (_lval : pointer SourceLval.t) (_atp : pointer AttackPoint.t)
  (bytes : list uint32_t) :
  (List.length bytes mod 4 = 0)%nat ->
  exists m e : SourceModification.t,
    SourceModification.new oversized_shift _lval (bytes ++ bytes) _atp = Returns m /\
    SourceModification.new oversized_shift _lval [] _atp = Returns e /\
    SourceModification.selected_bytes_hash m = 0 /\
    equivalent SourceModification.lt m e.
Proof.
  intros Hlen.
  do 2 eexists. split; [reflexivity|]. split; [reflexivity|].
  assert (H0 : SourceModification.hash_loop oversized_shift (bytes ++ bytes)
                 (List.length (bytes ++ bytes)) 0 0 = 0).
  { rewrite hash_loop_xor_over_positions, xor_over_positions_app by assumption.
    apply Z.lxor_nilpotent. }
  split; [exact H0|].
  unfold equivalent, SourceModification.lt.
  cbn [SourceModification.atp SourceModification.lval
       SourceModification.selected_bytes_hash].
  rewrite H0. cbn [SourceModification.hash_loop List.length].
  split; apply less_irrefl.
Qed.

Lemma SourceModification_doubled_selection_hashes_like_empty_witness :
  (List.length [7; 1; 8; 3] mod 4 = 0)%nat /\
  exists m e : SourceModification.t,
    SourceModification.new masked_shift 4096 ([7; 1; 8; 3] ++ [7; 1; 8; 3]) 16384
      = Returns m /\
    SourceModification.new masked_shift 4096 [] 16384 = Returns e /\
    SourceModification.selected_bytes_hash m = 0 /\
    equivalent SourceModification.lt m e.
Proof.
  assert (H : (List.length [7; 1; 8; 3] mod 4 = 0)%nat) by reflexivity.
  split; [exact H|].
  exact (SourceModification_doubled_selection_hashes_like_empty
           masked_shift 4096 16384 [7; 1; 8; 3] H).
Defined.

Lemma shift_amount_16 (i : nat) : (i mod 4 = 1)%nat -> shift_amount i = 16.
Proof. unfold shift_amount. now intros ->. Qed.

Lemma add32_low_16 (b b' : Z) :
  b mod 2 ^ 16 = b' mod 2 ^ 16 -> add32 b 1 mod 2 ^ 16 = add32 b' 1 mod 2 ^ 16.
Proof.
  intros Hbb. unfold add32.
  assert (Hdiv : (2 ^ 16 | 2 ^ 32)) by (exists (2 ^ 16); reflexivity).
  rewrite !Z.mod_mod_divide by exact Hdiv.
  rewrite <- (Z.add_mod_idemp_l b), <- (Z.add_mod_idemp_l b') by lia.
  now rewrite Hbb.
Qed.

Lemma xor_over_positions_low_16 (oversized_shift : Z -> Z -> Z)
  (before after : list uint32_t) (b b' : Z) :
  (List.length before mod 4 = 1)%nat ->
  b mod 2 ^ 16 = b' mod 2 ^ 16 ->
  xor_over_positions oversized_shift (before ++ b :: after) =
  xor_over_positions oversized_shift (before ++ b' :: after).
Proof.
  intros Hpos Hbb. unfold xor_over_positions.
  rewrite !length_app. cbn [List.length]. f_equal.
  apply map_ext_in. intros i _. unfold hash_term.
  destruct (Nat.lt_trichotomy i (List.length before)) as [Hlt | [-> | Hgt]].
  - now rewrite !app_nth1 by assumption.
  - rewrite !nth_middle, shift_amount_16, !shl32_by_16 by assumption.
    now rewrite (add32_low_16 b b').
  - rewrite !app_nth2 by lia.
    destruct (i - List.length before)%nat as [|k] eqn:Hk; [lia|]. reflexivity.
Qed.

(** In the second position, and every fourth one after it, only the low
    sixteen bits of the index count: two selections that differ there by a
    multiple of 65536 get the same hash, and their records at one lval and
    attack point are equivalent for [SourceModification::operator<]. *)
Theorem SourceModification_hash_drops_high_bits_at_shift_16
  (oversized_shift : Z -> Z -> Z)
  (_lval : pointer SourceLval.t) (_atp : pointer AttackPoint.t)
  (before after : list uint32_t) (b b' : uint32_t) :
  (List.length before mod 4 = 1)%nat ->
  b mod 65536 = b' mod 65536 ->
  exists m m' : SourceModification.t,
    SourceModification.new oversized_shift _lval (before ++ b :: after) _atp = Returns m /\
    SourceModification.new oversized_shift _lval (before ++ b' :: after) _atp = Returns m' /\
    SourceModification.selected_bytes_hash m = SourceModification.selected_bytes_hash m' /\
    equivalent SourceModification.lt m m'.
Proof.
  intros Hpos Hbb.
  do 2 eexists. split; [reflexivity|]. split; [reflexivity|].
  assert (Hh : SourceModification.hash_loop oversized_shift (before ++ b :: after)
                 (List.length (before ++ b :: after)) 0 0 =
               SourceModification.hash_loop oversized_shift (before ++ b' :: after)
                 (List.length (before ++ b' :: after)) 0 0).
  { rewrite !hash_loop_xor_over_positions. now apply xor_over_positions_low_16. }
  split; [exact Hh|].
  unfold equivalent, SourceModification.lt.
  cbn [SourceModification.atp SourceModification.lval
       SourceModification.selected_bytes_hash].
  rewrite Hh. split; apply less_irrefl.
Qed.

Lemma SourceModification_hash_drops_high_bits_at_shift_16_witness :
  (List.length [9] mod 4 = 1)%nat /\
  3 mod 65536 = 196611 mod 65536 /\
  exists m m' : SourceModification.t,
    SourceModification.new masked_shift 4096 ([9] ++ 3 :: [4]) 16384 = Returns m /\
    SourceModification.new masked_shift 4096 ([9] ++ 196611 :: [4]) 16384 = Returns m' /\
    SourceModification.selected_bytes_hash m = SourceModification.selected_bytes_hash m' /\
    equivalent SourceModification.lt m m'.
Proof.
  assert (H1 : (List.length [9] mod 4 = 1)%nat) by reflexivity.
  assert (H2 : 3 mod 65536 = 196611 mod 65536) by reflexivity.
  split; [exact H1|]. split; [exact H2|].
  exact (SourceModification_hash_drops_high_bits_at_shift_16
           masked_shift 4096 16384 [9] [4] 3 196611 H1 H2).
Defined.

(** ** AttackPoint as text *)

Lemma string_append_assoc (a b c : string) :
  ((a ++ b) ++ c)%string = (a ++ (b ++ c))%string.
Proof. induction a as [|x a IH]; simpl; [reflexivity | now rewrite IH]. Qed.

Lemma string_append_nil_l (a : string) : (EmptyString ++ a)%string = a.
Proof. reflexivity. Qed.

(** With assertions enabled the conversion to [std::string] stops at
    [assert(false)] exactly for ATP_LARGE_BUFFER_AVAIL and returns a text
    for the two other kinds; under [NDEBUG] it returns a text for every
    kind. *)
Theorem AttackPoint_to_string_outcomes (m : AttackPoint.t) :
  (AttackPoint.to_string false m = AssertionFailed <->
   AttackPoint.type m = AttackPoint.ATP_LARGE_BUFFER_AVAIL) /\
  ((exists text, AttackPoint.to_string false m = Returns text) <->
   AttackPoint.type m <> AttackPoint.ATP_LARGE_BUFFER_AVAIL) /\
  (exists text, AttackPoint.to_string true m = Returns text).
Proof.
  destruct m as [i f l k].
  unfold AttackPoint.to_string, AttackPoint.stream_out.
  cbn [AttackPoint.type AttackPoint.file AttackPoint.line].
  destruct k; cbn [AttackPoint.Type_eqb AttackPoint.Type_value Z.eqb bind cassert orb].
  all: split; [split; [try discriminate; reflexivity | try discriminate; reflexivity]|].
  all: split; [split|eexists; reflexivity].
  all: try (intros _; discriminate).
  all: try (intros _; eexists; reflexivity).
  all: try (intros [text H]; discriminate H).
  all: try (intros H; now elim H).
Qed.

(** *** The text identifies the attack point *)

Lemma to_string_text (NDEBUG : bool) (m : AttackPoint.t) (text : string) :
  AttackPoint.to_string NDEBUG m = Returns text ->
  text = ("ATP [" ++ AttackPoint.file m ++ ":" ++
          NilZero.string_of_uint (N.to_uint (Z.to_N (AttackPoint.line m))) ++
          ("] {" ++ text_in_braces (AttackPoint.type m) ++ "}"))%string.
Proof.
  destruct m as [i f l k].
  unfold AttackPoint.to_string, AttackPoint.stream_out, put_unsigned, put_string.
  cbn [AttackPoint.type AttackPoint.file AttackPoint.line].
  destruct k, NDEBUG;
    cbn [AttackPoint.Type_eqb AttackPoint.Type_value Z.eqb bind cassert orb
         text_in_braces];
    try discriminate; intros H; injection H as <-;
    rewrite ?string_append_nil_l, ?string_append_assoc; reflexivity.
Qed.

Lemma chars_append (a b : string) :
  list_ascii_of_string (a ++ b) = (list_ascii_of_string a ++ list_ascii_of_string b)%list.
Proof. induction a as [|x a IH]; simpl; [reflexivity | now rewrite IH]. Qed.

Lemma chars_inj (a b : string) :
  list_ascii_of_string a = list_ascii_of_string b -> a = b.
Proof.
  intros H. rewrite <- (string_of_list_ascii_of_string a), H.
  apply string_of_list_ascii_of_string.
Qed.

(** Decimal digits hold no colon. *)
Lemma digits_no_colon (d : Decimal.uint) :
  ~ In ":"%char (list_ascii_of_string (NilEmpty.string_of_uint d)).
Proof.
  induction d; simpl; intros H; try tauto;
    destruct H as [H | H]; try discriminate H; tauto.
Qed.

Lemma decimal_no_colon (n : N) :
  ~ In ":"%char (list_ascii_of_string (NilZero.string_of_uint (N.to_uint n))).
Proof.
  unfold NilZero.string_of_uint.
  destruct (N.to_uint n) eqn:E; try (rewrite <- E; apply digits_no_colon).
  simpl. intros [H | H]; [discriminate H | tauto].
Qed.

Lemma to_uint_not_Nil (n : N) : N.to_uint n <> Decimal.Nil.
Proof.
  intros H. pose proof (DecimalN.Unsigned.of_to n) as Hn.
  rewrite H in Hn. cbn in Hn. subst n. discriminate H.
Qed.

Lemma decimal_inj (n n' : N) :
  NilZero.string_of_uint (N.to_uint n) = NilZero.string_of_uint (N.to_uint n') -> n = n'.
Proof.
  intros H. apply (f_equal NilZero.uint_of_string) in H.
  rewrite !NilZero.usu in H by apply to_uint_not_Nil.
  injection H as H. now apply DecimalN.Unsigned.to_uint_inj.
Qed.

(** Two texts cut at their first colon. *)
Lemma split_at_first (c : ascii) (l l' r r' : list ascii) :
  ~ In c l -> ~ In c l' -> (l ++ c :: r = l' ++ c :: r')%list -> l = l' /\ r = r'.
Proof.
  revert l'. induction l as [|x l IH]; intros [|x' l'] Hl Hl' H; simpl in *.
  - injection H as H. auto.
  - injection H as Hc _. subst x'. tauto.
  - injection H as Hc _. subst x. tauto.
  - injection H as Hx H. subst x'.
    destruct (IH l') as [-> ->]; auto.
Qed.

Lemma rev_inj (l l' : list ascii) : rev l = rev l' -> l = l'.
Proof. intros H. rewrite <- (rev_involutive l), H. apply rev_involutive. Qed.

(** The closing part of the text tells the kind. *)
Lemma closing_text_inj (k k' : AttackPoint.Type_) (x x' : list ascii) :
  (x ++ list_ascii_of_string ("] {" ++ text_in_braces k ++ "}") =
   x' ++ list_ascii_of_string ("] {" ++ text_in_braces k' ++ "}"))%list ->
  k = k' /\ x = x'.
Proof.
  intros H. apply (f_equal (@rev ascii)) in H. rewrite !rev_app_distr in H.
  destruct k, k'; try (simpl in H; discriminate H).
  all: split; [reflexivity|]; apply app_inv_head in H; now apply rev_inj.
Qed.

(** The last colon cuts the file name from the line number. *)
Lemma file_and_line_inj (f f' : string) (n n' : N) :
  (list_ascii_of_string f ++
   ":"%char :: list_ascii_of_string (NilZero.string_of_uint (N.to_uint n)) =
   list_ascii_of_string f' ++
   ":"%char :: list_ascii_of_string (NilZero.string_of_uint (N.to_uint n')))%list ->
  f = f' /\ n = n'.
Proof.
  intros H. apply (f_equal (@rev ascii)) in H.
  rewrite !rev_app_distr in H. cbn [rev] in H.
  rewrite <- !app_assoc in H. cbn [app] in H.
  apply split_at_first in H.
  - destruct H as [Hn Hf]. apply rev_inj, chars_inj in Hn, Hf.
    split; [exact Hf | now apply decimal_inj].
  - rewrite <- in_rev. apply decimal_no_colon.
  - rewrite <- in_rev. apply decimal_no_colon.
Qed.

(** The text of an AttackPoint determines its file, line and kind: two
    attack points with one text agree on the members of [AttackPointUniq].
    This holds with assertions enabled and under [NDEBUG]. *)
Theorem AttackPoint_to_string_injective
  (NDEBUG : bool) (a b : AttackPoint.t) (text : string) :
  0 <= AttackPoint.line a -> 0 <= AttackPoint.line b ->
  AttackPoint.to_string NDEBUG a = Returns text ->
  AttackPoint.to_string NDEBUG b = Returns text ->
  AttackPoint.file a = AttackPoint.file b /\
  AttackPoint.line a = AttackPoint.line b /\
  AttackPoint.type a = AttackPoint.type b.
Proof.
  intros Hla Hlb Ta Tb.
  apply to_string_text in Ta, Tb. rewrite Ta in Tb. clear Ta.
  apply (f_equal list_ascii_of_string) in Tb.
  rewrite !(chars_append "ATP [") in Tb. apply app_inv_head in Tb.
  rewrite !(chars_append (AttackPoint.file _)), !(chars_append ":") in Tb.
  rewrite !(chars_append (NilZero.string_of_uint _)) in Tb.
  change (list_ascii_of_string ":") with [":"%char] in Tb.
  rewrite !app_assoc in Tb.
  apply closing_text_inj in Tb. destruct Tb as [Hk Hx].
  rewrite <- !app_assoc in Hx. cbn [app] in Hx.
  apply file_and_line_inj in Hx. destruct Hx as [Hf Hn].
  split; [exact Hf|]. split; [|exact Hk].
  rewrite <- (Z2N.id (AttackPoint.line a)), <- (Z2N.id (AttackPoint.line b)) by assumption.
  now rewrite Hn.
Qed.

Lemma AttackPoint_to_string_injective_witness :
  0 <= AttackPoint.line pointer_atp_first /\
  0 <= AttackPoint.line pointer_atp_again /\
  AttackPoint.to_string false pointer_atp_first =
    Returns "ATP [a.c:10] {ATP_POINTER_RW}"%string /\
  AttackPoint.to_string false pointer_atp_again =
    Returns "ATP [a.c:10] {ATP_POINTER_RW}"%string /\
  AttackPoint.file pointer_atp_first = AttackPoint.file pointer_atp_again /\
  AttackPoint.line pointer_atp_first = AttackPoint.line pointer_atp_again /\
  AttackPoint.type pointer_atp_first = AttackPoint.type pointer_atp_again.
Proof.
  assert (H1 : 0 <= AttackPoint.line pointer_atp_first) by (simpl; lia).
  assert (H2 : 0 <= AttackPoint.line pointer_atp_again) by (simpl; lia).
  assert (H3 : AttackPoint.to_string false pointer_atp_first =
               Returns "ATP [a.c:10] {ATP_POINTER_RW}"%string) by reflexivity.
  assert (H4 : AttackPoint.to_string false pointer_atp_again =
               Returns "ATP [a.c:10] {ATP_POINTER_RW}"%string) by reflexivity.
  split; [exact H1|]. split; [exact H2|]. split; [exact H3|]. split; [exact H4|].
  exact (AttackPoint_to_string_injective false pointer_atp_first pointer_atp_again
           "ATP [a.c:10] {ATP_POINTER_RW}" H1 H2 H3 H4).
Defined.

(** ** The shift past the width of its operand *)

Lemma shl32_by_32 (oversized_shift : Z -> Z -> Z) (x : Z) :
  shl32 oversized_shift x 32 = oversized_shift x 32 mod 2 ^ 32.
Proof. reflexivity. Qed.

Lemma claimed_term_0 (b : Z) : claimed_term b 0 = add32 b 1.
Proof.
  unfold claimed_term, add32. change (shift_amount 0) with 0.
  rewrite Z.pow_0_r, Z.mul_1_r. apply Z.mod_mod. lia.
Qed.

Lemma claimed_term_1 (b : Z) : claimed_term b 1 = (add32 b 1 mod 2 ^ 16) * 2 ^ 16.
Proof.
  unfold claimed_term, add32. change (shift_amount 1) with 16.
  change (2 ^ 32) with (2 ^ 16 * 2 ^ 16) at 2.
  apply Zmult_mod_distr_r.
Qed.

(** C4.  Where the shift count is below 32, at the first two positions, the
    constructor computes what the specification says: the index plus one,
    shifted left by 0 and by 16 in 32 bits.  At the third position it hands
    the count 32 to a shift of a 32-bit operand, and the hash is whatever
    that shift yields.  With the count masked to five bits, as on x86, the
    selection [0, 0, 0] hashes to 65536 where four distinct shift amounts
    give 65537, and [0, 0, 0, 0] hashes to 0 like the empty selection: the
    shifts repeat with period two. *)
Theorem SourceModification_hash_shift_past_width :
  (forall (oversized_shift : Z -> Z -> Z)
          (_lval : pointer SourceLval.t) (_atp : pointer AttackPoint.t) (a b c : uint32_t),
      exists m1 m2 m3 : SourceModification.t,
        SourceModification.new oversized_shift _lval [a] _atp = Returns m1 /\
        SourceModification.selected_bytes_hash m1 = claimed_hash [a] /\
        SourceModification.new oversized_shift _lval [a; b] _atp = Returns m2 /\
        SourceModification.selected_bytes_hash m2 = claimed_hash [a; b] /\
        SourceModification.new oversized_shift _lval [a; b; c] _atp = Returns m3 /\
        SourceModification.selected_bytes_hash m3 =
        Z.lxor (claimed_hash [a; b])
               (oversized_shift ((c + 1) mod 2 ^ 32) 32 mod 2 ^ 32)) /\
  (exists m3 m4 : SourceModification.t,
      SourceModification.new masked_shift 4096 [0; 0; 0] 16384 = Returns m3 /\
      SourceModification.selected_bytes_hash m3 = 65536 /\
      claimed_hash [0; 0; 0] = 65537 /\
      SourceModification.new masked_shift 4096 [0; 0; 0; 0] 16384 = Returns m4 /\
      SourceModification.selected_bytes_hash m4 = 0 /\
      claimed_hash [0; 0; 0; 0] = 65537).
Proof.
  split.
  - intros oversized_shift _lval _atp a b c.
    do 3 eexists.
    split; [reflexivity|]. split; [|split; [reflexivity|split; [|split; [reflexivity|]]]].
    all: cbn [SourceModification.selected_bytes_hash];
      rewrite hash_loop_xor_over_positions;
      unfold xor_over_positions, hash_term, claimed_hash;
      cbn [List.length seq map fold_right nth claimed_hash_from];
      rewrite ?claimed_term_0, ?claimed_term_1;
      change (shift_amount 0) with 0; change (shift_amount 1) with 16;
      rewrite ?shl32_by_0, ?shl32_by_16.
    + unfold add32. now rewrite Z.mod_mod by lia.
    + unfold add32. now rewrite Z.mod_mod by lia.
    + change (shift_amount 2) with 32. rewrite shl32_by_32.
      unfold add32. rewrite Z.mod_mod by lia.
      now rewrite !Z.lxor_0_r, Z.lxor_assoc.
  - do 2 eexists.
    split; [reflexivity|]. split; [reflexivity|]. split; [reflexivity|].
    split; [reflexivity|]. split; reflexivity.
Qed.
